(** * The CSS selector builder of [08-objects-tasks.js]

    A shallow embedding of class [CSSSelector] and of the facade object
    [cssSelectorBuilder], with the properties of the builder stated and
    proved against it.

    JavaScript objects are mutable and are handled by reference, so the
    embedding keeps an explicit store: every [new CSSSelector(...)] and every
    array literal allocates a cell, fields are read and written through the
    store, and a [throw] leaves the store as it was at the point of failure
    (the half-built object stays behind as garbage). *)

From Stdlib Require Import ZArith Ascii String List.
From stdpp Require Import base option list strings.

Local Open Scope string_scope.
Local Open Scope Z_scope.
Local Open Scope list_scope.

(** ** The store *)

(** A reference into the store. *)
Abbreviation loc := nat.

(** The own properties of a [CSSSelector] instance.  [this.value] is written
    by the first statement of the constructor, so the object comes into being
    with it; [this.type] stays [undefined] ([None]) until the constructor
    assigns the array it was given. *)
Record CSSSelector_fields := Fields {
  value : string;
  type : option loc
}.

Inductive cell :=
| Obj (o : CSSSelector_fields)
| Arr (elems : list string).

Abbreviation heap := (list cell).

(** What a [throw] carries: [new Error(message)] of the source, or the
    [TypeError] the engine raises when a property of [undefined] or of a
    value of the wrong shape is used. *)
Inductive exn :=
| Error (message : string)
| TypeError.

Inductive outcome (A : Type) :=
| Return (a : A)
| Throw (e : exn).
Arguments Return {A} a.
Arguments Throw {A} e.

(** Computations over the store that may throw. *)
Definition M (A : Type) : Type := heap → heap * outcome A.

Definition ret {A} (a : A) : M A := λ h, (h, Return a).

Definition bind {A B} (m : M A) (k : A → M B) : M B :=
  λ h, match m h with
       | (h', Return a) => k a h'
       | (h', Throw e) => (h', Throw e)
       end.

Definition throw {A} (e : exn) : M A := λ h, (h, Throw e).

#[global] Instance M_ret : MRet M := @ret.
#[global] Instance M_bind : MBind M := λ A B k m, bind m k.

(** Allocation returns the next free reference. *)
Definition alloc (c : cell) : M loc := λ h, (h ++ [c], Return (length h)).

Definition get_obj (l : loc) : M CSSSelector_fields :=
  λ h, match h !! l with
       | Some (Obj o) => (h, Return o)
       | _ => (h, Throw TypeError)
       end.

Definition get_arr (l : loc) : M (list string) :=
  λ h, match h !! l with
       | Some (Arr xs) => (h, Return xs)
       | _ => (h, Throw TypeError)
       end.

Definition put_obj (l : loc) (o : CSSSelector_fields) : M unit :=
  λ h, (<[l := Obj o]> h, Return tt).

(** [this.value] *)
Definition get_value (this : loc) : M string :=
  o ← get_obj this; mret (value o).

(** [this.value = v] *)
Definition set_value (this : loc) (v : string) : M unit :=
  o ← get_obj this; put_obj this (Fields v (type o)).

(** [this.type = t] *)
Definition set_type (this : loc) (t : loc) : M unit :=
  o ← get_obj this; put_obj this (Fields (value o) (Some t)).

(** [this.type], read down to the elements of the array it refers to.  The
    source only ever reads that array ([filter], [slice], indexing and the
    spread all build fresh arrays that do not escape), so the readers below
    work on its elements. *)
Definition get_type (this : loc) : M (list string) :=
  o ← get_obj this;
  match type o with
  | Some t => get_arr t
  | None => throw TypeError
  end.

(** ** Array helpers *)

(** [xs.indexOf(x)]: the first position of [x], or [-1]. *)
Fixpoint indexOf_from (i : Z) (x : string) (xs : list string) : Z :=
  match xs with
  | [] => -1
  | y :: ys => if String.eqb y x then i else indexOf_from (i + 1) x ys
  end.

Definition indexOf (xs : list string) (x : string) : Z := indexOf_from 0 x xs.

(** [order.indexOf(t)] for a [t] that may be [undefined] (an empty
    [this.type]); [undefined] is not in the array. *)
Definition indexOf_opt (xs : list string) (x : option string) : Z :=
  match x with
  | Some s => indexOf xs s
  | None => -1
  end.

(** [xs.filter(x => x === k).length] *)
Definition count_of (k : string) (xs : list string) : nat :=
  length (List.filter (λ x, String.eqb x k) xs).

(** ** class CSSSelector *)

Module CSSSelector.

(** The [switch (type[0])] of the constructor: what is appended to
    [this.value].  No case matches an unknown or missing kind, and nothing is
    appended then. *)
Definition fragment (kind : option string) (value : string) : string :=
  match kind with
  | Some k =>
      if String.eqb k "element" then value
      else if String.eqb k "id" then "#" +:+ value
      else if String.eqb k "class" then "." +:+ value
      else if String.eqb k "attr" then "[" +:+ value +:+ "]"
      else if String.eqb k "pseudoClass" then ":" +:+ value
      else if String.eqb k "pseudoElement" then "::" +:+ value
      else EmptyString
  | None => EmptyString
  end.

Definition uniqueness_error : string :=
  "Element, id and pseudo-element should not occur more then one time inside the selector".

Definition order_error : string :=
  "Selector parts should be arranged in the following order: element, id, class, attribute, pseudo-class, pseudo-element".

Definition order : list string :=
  ["element"; "id"; "class"; "attr"; "pseudoClass"; "pseudoElement"].

Definition checkUniqueness (this : loc) : M unit :=
  t1 ← get_type this;
  if (1 <? count_of "element" t1)%nat then throw (Error uniqueness_error) else
  t2 ← get_type this;
  if (1 <? count_of "id" t2)%nat then throw (Error uniqueness_error) else
  t3 ← get_type this;
  if (1 <? count_of "pseudoElement" t3)%nat then throw (Error uniqueness_error) else
  mret tt.

(** The [for ... of this.type.slice(1)] loop of [checkOrder], started at
    [highestIndex]. *)
Fixpoint highest (highestIndex : Z) (rest : list string) : Z :=
  match rest with
  | [] => highestIndex
  | t :: rest' =>
      highest (if highestIndex <? indexOf order t then indexOf order t
               else highestIndex) rest'
  end.

Definition checkOrder (this : loc) : M unit :=
  t1 ← get_type this;
  let currentType := head t1 in
  t2 ← get_type this;
  let highestIndex := highest 0 (tail t2) in
  if indexOf_opt order currentType <? highestIndex
  then throw (Error order_error)
  else mret tt.

(** [new CSSSelector(value, type, remainder)]; [type] is a reference to the
    array the caller built. *)
Definition new (value : string) (type : loc) (remainder : string) : M loc :=
  this ← alloc (Obj (Fields remainder None));
  ty ← get_arr type;
  v ← get_value this;
  set_value this (v +:+ fragment (head ty) value);;
  set_type this type;;
  checkUniqueness this;;
  checkOrder this;;
  mret this.

Definition stringify (this : loc) : M string := get_value this.

(** The six getters differ only in the kind they put in front of the copied
    [this.type]: [new CSSSelector(value, [kind, ...this.type], this.value)]. *)
Definition extend (kind : string) (this : loc) (value : string) : M loc :=
  ty ← get_type this;
  arr ← alloc (Arr (kind :: ty));
  v ← get_value this;
  new value arr v.

Definition id := extend "id".
Definition class := extend "class".
Definition attr := extend "attr".
Definition element := extend "element".
Definition pseudoClass := extend "pseudoClass".
Definition pseudoElement := extend "pseudoElement".

Definition combine (selector1 : loc) (combinator : string) (selector2 : loc)
  : M loc :=
  s1 ← stringify selector1;
  s2 ← stringify selector2;
  let value := s1 +:+ " " +:+ combinator +:+ " " +:+ s2 in
  arr ← alloc (Arr ["element"]);
  new EmptyString arr value.

End CSSSelector.

(** ** const cssSelectorBuilder *)

Module cssSelectorBuilder.

(** [new CSSSelector(value, [kind])], with the default [remainder = '']. *)
Definition create (kind : string) (value : string) : M loc :=
  arr ← alloc (Arr [kind]);
  CSSSelector.new value arr EmptyString.

Definition element := create "element".
Definition id := create "id".
Definition class := create "class".
Definition attr := create "attr".
Definition pseudoClass := create "pseudoClass".
Definition pseudoElement := create "pseudoElement".

Definition combine (selector1 : loc) (combinator : string) (selector2 : loc)
  : M loc :=
  CSSSelector.combine selector1 combinator selector2.

End cssSelectorBuilder.

(** ** The vocabulary of the specification *)

(** The six kinds of fragment, in precedence order. *)
Inductive FragmentKind :=
| Element | Id | Class | Attribute | PseudoClass | PseudoElement.

#[global] Instance FragmentKind_eq_dec : EqDecision FragmentKind.
Proof. solve_decision. Defined.

(** The string by which the source names a kind. *)
Definition kind_name (K : FragmentKind) : string :=
  match K with
  | Element => "element"
  | Id => "id"
  | Class => "class"
  | Attribute => "attr"
  | PseudoClass => "pseudoClass"
  | PseudoElement => "pseudoElement"
  end.

(** The precedence table of the specification. *)
Definition rank (K : FragmentKind) : Z :=
  match K with
  | Element => 0
  | Id => 1
  | Class => 2
  | Attribute => 3
  | PseudoClass => 4
  | PseudoElement => 5
  end.

(** The delimiters of the specification. *)
Definition delimited (K : FragmentKind) (text : string) : string :=
  match K with
  | Element => text
  | Id => "#" +:+ text
  | Class => "." +:+ text
  | Attribute => "[" +:+ text +:+ "]"
  | PseudoClass => ":" +:+ text
  | PseudoElement => "::" +:+ text
  end.

(** The kinds that may occur once only. *)
Definition unique_kind (K : FragmentKind) : bool :=
  match K with
  | Element | Id | PseudoElement => true
  | Class | Attribute | PseudoClass => false
  end.

(** [selector.<kind>(value)] and [cssSelectorBuilder.<kind>(value)]. *)
Definition append (K : FragmentKind) : loc → string → M loc :=
  match K with
  | Element => CSSSelector.element
  | Id => CSSSelector.id
  | Class => CSSSelector.class
  | Attribute => CSSSelector.attr
  | PseudoClass => CSSSelector.pseudoClass
  | PseudoElement => CSSSelector.pseudoElement
  end.

Definition factory (K : FragmentKind) : string → M loc :=
  match K with
  | Element => cssSelectorBuilder.element
  | Id => cssSelectorBuilder.id
  | Class => cssSelectorBuilder.class
  | Attribute => cssSelectorBuilder.attr
  | PseudoClass => cssSelectorBuilder.pseudoClass
  | PseudoElement => cssSelectorBuilder.pseudoElement
  end.

(** A fragment-kind history [H] lists kinds oldest first; the source keeps
    the newest first in [this.type].  [max_rank H] is the specification's
    [maxRank], 0 for the empty history. *)
Definition max_rank (H : list FragmentKind) : Z :=
  foldr (λ K m, Z.max (rank K) m) 0 H.

Definition occurrences (K : FragmentKind) (H : list FragmentKind) : nat :=
  length (List.filter (λ k, bool_decide (k = K)) H).

(** At most one Element, one Id and one PseudoElement. *)
Definition unique_history (H : list FragmentKind) : bool :=
  (occurrences Element H <=? 1)%nat
  && (occurrences Id H <=? 1)%nat
  && (occurrences PseudoElement H <=? 1)%nat.

(** Every kind has a rank at least that of everything before it; [m] is the
    highest rank met so far. *)
Fixpoint respects_order_from (m : Z) (H : list FragmentKind) : bool :=
  match H with
  | [] => true
  | K :: H' => (m <=? rank K) && respects_order_from (Z.max m (rank K)) H'
  end.

Definition respects_order (H : list FragmentKind) : bool :=
  respects_order_from 0 H.

(** [s] refers to a constructed selector with rendered text [v] and
    fragment-kind history [H]. *)
Definition selector_at (h : heap) (s : loc) (v : string)
    (H : list FragmentKind) : Prop :=
  ∃ a, h !! s = Some (Obj (Fields v (Some a)))
       ∧ h !! a = Some (Arr (kind_name <$> rev H)).

(** A fragment is a kind with its text; a chain is a factory call followed
    by instance calls, [builder.k0(v0).k1(v1)...]. *)
Definition Fragment : Type := FragmentKind * string.

Fixpoint appends (s : loc) (fs : list Fragment) : M loc :=
  match fs with
  | [] => mret s
  | f :: fs' => s' ← append f.1 s f.2; appends s' fs'
  end.

Definition chain (f : Fragment) (fs : list Fragment) : M loc :=
  s ← factory f.1 f.2; appends s fs.

(** The fragments grouped by kind in precedence order, same-kind fragments
    staying in the order of the calls, and the concatenation of their
    delimited texts. *)
Definition precedence : list FragmentKind :=
  [Element; Id; Class; Attribute; PseudoClass; PseudoElement].

Definition in_precedence_order (fs : list Fragment) : list Fragment :=
  flat_map (λ K, List.filter (λ f : Fragment, bool_decide (f.1 = K)) fs)
           precedence.

Definition render (fs : list Fragment) : string :=
  foldr (λ (f : Fragment) acc, delimited f.1 f.2 +:+ acc) EmptyString fs.

(** ** The checks as functions of the elements of [this.type] *)

Definition duplicated (ty : list string) : bool :=
  (1 <? count_of "element" ty)%nat
  || (1 <? count_of "id" ty)%nat
  || (1 <? count_of "pseudoElement" ty)%nat.

Definition misordered (ty : list string) : bool :=
  indexOf_opt CSSSelector.order (head ty) <? CSSSelector.highest 0 (tail ty).

Definition verdict (ty : list string) : option exn :=
  if duplicated ty then Some (Error CSSSelector.uniqueness_error)
  else if misordered ty then Some (Error CSSSelector.order_error)
  else None.

(** ** Programs over the public interface *)

Definition returned (r : outcome loc) : list loc :=
  match r with
  | Return s => [s]
  | Throw _ => []
  end.

(** [client h known]: some sequence of calls of the six factory operations,
    the six instance operations and [combine], started on the empty store and
    applied only to selectors the interface returned earlier, has led to the
    store [h] and holds the selectors [known].  A call that throws leaves its
    garbage in the store and hands nothing back. *)
Inductive client : heap → list loc → Prop :=
| client_start : client [] []
| client_factory h known K v h' r :
    client h known →
    factory K v h = (h', r) →
    client h' (returned r ++ known)
| client_append h known K s v h' r :
    client h known → s ∈ known →
    append K s v h = (h', r) →
    client h' (returned r ++ known)
| client_combine h known s1 c s2 h' r :
    client h known → s1 ∈ known → s2 ∈ known →
    cssSelectorBuilder.combine s1 c s2 h = (h', r) →
    client h' (returned r ++ known).

(** The store after [builder.element('table').class('x')], run from the
    empty store; the selector it returns is at reference 3. *)
Definition table_x : heap :=
  ((s ← cssSelectorBuilder.element "table"; CSSSelector.class s "x") []).1.

(** The store after [builder.element('div').id('main')] and
    [builder.element('table').id('data')], run from the empty store; the two
    selectors are at references 3 and 7. *)
Definition div_table : heap :=
  ((a ← cssSelectorBuilder.element "div"; _ ← CSSSelector.id a "main";
    b ← cssSelectorBuilder.element "table"; CSSSelector.id b "data") []).1.

(** [div_table] after [builder.combine(div, '+', table)]; the combined
    selector is at reference 9. *)
Definition div_plus_table : heap :=
  (cssSelectorBuilder.combine 3 "+" 7 div_table).1.

(** The double quote, for the attribute example. *)
Definition dquote : string := String "034"%char EmptyString.

(** * Properties *)

(** ** Running the primitives *)

Ltac unfold_M :=
  unfold mbind, M_bind, bind, mret, M_ret, ret, throw.

Section text.
Implicit Types (s t u : string).

Lemma append_nil_r s : s +:+ EmptyString = s.
Proof.
  induction s as [|a s IH]; [done|].
  change (String a (s +:+ EmptyString) = String a s). by rewrite IH.
Qed.

Lemma append_assoc s t u : (s +:+ t) +:+ u = s +:+ t +:+ u.
Proof.
  induction s as [|a s IH]; [done|].
  change (String a ((s +:+ t) +:+ u) = String a (s +:+ t +:+ u)).
  by rewrite IH.
Qed.
End text.

Section store.
Implicit Types (h : heap) (c : cell) (l this : loc).

Lemma lookup_fresh h c : (h ++ [c]) !! length h = Some c.
Proof. rewrite lookup_app_r by lia. by rewrite Nat.sub_diag. Qed.

Lemma lookup_old h ext l c : h !! l = Some c → (h ++ ext) !! l = Some c.
Proof. apply lookup_app_l_Some. Qed.

Lemma insert_fresh h c c' : <[length h := c']> (h ++ [c]) = h ++ [c'].
Proof. rewrite insert_app_r_alt by lia. by rewrite Nat.sub_diag. Qed.

Lemma get_type_run h this v a ty :
  h !! this = Some (Obj (Fields v (Some a))) →
  h !! a = Some (Arr ty) →
  get_type this h = (h, Return ty).
Proof.
  intros Ho Ha. unfold get_type, get_obj, get_arr. unfold_M.
  rewrite Ho. simpl. by rewrite Ha.
Qed.

Lemma get_value_run h this o :
  h !! this = Some (Obj o) → get_value this h = (h, Return (value o)).
Proof. intros Ho. unfold get_value, get_obj. unfold_M. by rewrite Ho. Qed.

(** Reading never changes the store. *)
Lemma get_value_heap h this : (get_value this h).1 = h.
Proof.
  unfold get_value, get_obj. unfold_M.
  by destruct (h !! this) as [[]|].
Qed.

Lemma get_value_Return h this h' v :
  get_value this h = (h', Return v) →
  h' = h ∧ ∃ o, h !! this = Some (Obj o) ∧ value o = v.
Proof.
  unfold get_value, get_obj. unfold_M.
  destruct (h !! this) as [[o|]|]; intros [= <- <-] || intros [=]; eauto.
Qed.
End store.

(** ** Running the constructor and the operations *)

Section run.
Implicit Types (h : heap) (ty : list string) (this s a : loc).

Lemma checkUniqueness_run h this ty :
  get_type this h = (h, Return ty) →
  CSSSelector.checkUniqueness this h =
    (h, if duplicated ty then Throw (Error CSSSelector.uniqueness_error)
        else Return tt).
Proof.
  intros Ht. unfold CSSSelector.checkUniqueness, duplicated. unfold_M.
  rewrite Ht. destruct (1 <? count_of "element" ty)%nat; [done|].
  rewrite Ht. destruct (1 <? count_of "id" ty)%nat; [done|].
  rewrite Ht. by destruct (1 <? count_of "pseudoElement" ty)%nat.
Qed.

Lemma checkOrder_run h this ty :
  get_type this h = (h, Return ty) →
  CSSSelector.checkOrder this h =
    (h, if misordered ty then Throw (Error CSSSelector.order_error)
        else Return tt).
Proof.
  intros Ht. unfold CSSSelector.checkOrder, misordered. unfold_M.
  rewrite !Ht. by case_match.
Qed.

(** The constructor allocates exactly one object, whatever the checks say. *)
Lemma new_run h a ty val rem :
  h !! a = Some (Arr ty) →
  CSSSelector.new val a rem h =
    (h ++ [Obj (Fields (rem +:+ CSSSelector.fragment (head ty) val) (Some a))],
     match verdict ty with
     | Some e => Throw e
     | None => Return (length h)
     end).
Proof.
  intros Ha. unfold CSSSelector.new.
  unfold alloc, get_value, set_value, set_type, get_obj, get_arr, put_obj.
  unfold_M.
  rewrite (lookup_old _ _ _ _ Ha), lookup_fresh. simpl.
  repeat (rewrite ?lookup_fresh, ?insert_fresh; simpl).
  set (h' := h ++ [_]).
  assert (Ht : get_type (length h) h' = (h', Return ty)).
  { eapply get_type_run; [apply lookup_fresh | by apply lookup_old]. }
  rewrite (checkUniqueness_run _ _ _ Ht). unfold verdict.
  destruct (duplicated ty); [done|].
  rewrite (checkOrder_run _ _ _ Ht).
  by destruct (misordered ty).
Qed.

(** Given a reference that is not an array the constructor stops with a
    [TypeError], the fresh object left behind. *)
Lemma new_stuck h a val rem :
  (∀ ty, h !! a ≠ Some (Arr ty)) →
  CSSSelector.new val a rem h =
    (h ++ [Obj (Fields rem None)], Throw TypeError).
Proof.
  intros Ha. unfold CSSSelector.new, alloc, get_arr. unfold_M.
  destruct (decide (a < length h)%nat) as [Hlt|Hge].
  - rewrite lookup_app_l by done.
    destruct (h !! a) as [[o|ty]|] eqn:E; try done. by destruct (Ha ty).
  - rewrite lookup_app_r by lia.
    destruct (a - length h)%nat as [|n]; [done|].
    by destruct n.
Qed.

Lemma extend_run h s v a ty k val :
  h !! s = Some (Obj (Fields v (Some a))) →
  h !! a = Some (Arr ty) →
  CSSSelector.extend k s val h =
    (h ++ [Arr (k :: ty);
           Obj (Fields (v +:+ CSSSelector.fragment (Some k) val)
                       (Some (length h)))],
     match verdict (k :: ty) with
     | Some e => Throw e
     | None => Return (S (length h))
     end).
Proof.
  intros Hs Ha. unfold CSSSelector.extend.
  unfold mbind, M_bind, bind at 1.
  rewrite (get_type_run _ _ _ _ _ Hs Ha).
  unfold bind at 1, alloc. unfold bind at 1.
  rewrite (get_value_run _ _ _ (lookup_old _ [_] _ _ Hs)).
  rewrite (new_run _ (length h) (k :: ty)) by apply lookup_fresh.
  rewrite <-app_assoc, length_app, Nat.add_1_r. done.
Qed.

Lemma create_run h k val :
  cssSelectorBuilder.create k val h =
    (h ++ [Arr [k];
           Obj (Fields (CSSSelector.fragment (Some k) val) (Some (length h)))],
     match verdict [k] with
     | Some e => Throw e
     | None => Return (S (length h))
     end).
Proof.
  unfold cssSelectorBuilder.create, alloc. unfold mbind, M_bind, bind.
  rewrite (new_run _ (length h) [k]) by apply lookup_fresh.
  rewrite <-app_assoc, length_app, Nat.add_1_r. done.
Qed.

Lemma combine_run h s1 s2 o1 o2 c :
  h !! s1 = Some (Obj o1) → h !! s2 = Some (Obj o2) →
  CSSSelector.combine s1 c s2 h =
    (h ++ [Arr ["element"];
           Obj (Fields (value o1 +:+ " " +:+ c +:+ " " +:+ value o2)
                       (Some (length h)))],
     Return (S (length h))).
Proof.
  intros H1 H2. unfold CSSSelector.combine, CSSSelector.stringify, alloc.
  unfold mbind, M_bind, bind.
  rewrite (get_value_run _ _ _ H1), (get_value_run _ _ _ H2).
  rewrite (new_run _ (length h) ["element"]) by apply lookup_fresh.
  rewrite <-app_assoc, length_app, Nat.add_1_r. simpl.
  by rewrite append_nil_r.
Qed.
End run.

(** ** The source's tables against the specification's *)

Section vocabulary.
Implicit Types (K : FragmentKind) (H : list FragmentKind).

Lemma fragment_delimited K text :
  CSSSelector.fragment (Some (kind_name K)) text = delimited K text.
Proof. by destruct K. Qed.

Lemma append_extend K : append K = CSSSelector.extend (kind_name K).
Proof. by destruct K. Qed.

Lemma factory_create K : factory K = cssSelectorBuilder.create (kind_name K).
Proof. by destruct K. Qed.

Lemma indexOf_rank K : indexOf CSSSelector.order (kind_name K) = rank K.
Proof. by destruct K. Qed.

Lemma kind_name_eqb K K' :
  String.eqb (kind_name K) (kind_name K') = bool_decide (K = K').
Proof. by destruct K, K'. Qed.

Lemma rank_bounds K : 0 ≤ rank K ≤ 5.
Proof. destruct K; simpl; lia. Qed.

Lemma max_rank_nonneg H : 0 ≤ max_rank H.
Proof. induction H as [|K H IH]; simpl; lia. Qed.

Lemma max_rank_app H1 H2 :
  max_rank (H1 ++ H2) = Z.max (max_rank H1) (max_rank H2).
Proof.
  induction H1 as [|K H1 IH]; simpl.
  - pose proof (max_rank_nonneg H2). lia.
  - rewrite IH. lia.
Qed.

Lemma max_rank_rev H : max_rank (rev H) = max_rank H.
Proof.
  induction H as [|K H IH]; [done|].
  simpl. rewrite max_rank_app, IH. simpl.
  pose proof (rank_bounds K). lia.
Qed.

Lemma max_rank_elem K H : K ∈ H → rank K ≤ max_rank H.
Proof.
  induction 1 as [K H|K K' H _ IH]; simpl; lia.
Qed.

(** The loop of [checkOrder] computes the specification's maximum. *)
Lemma highest_max_rank m H :
  0 ≤ m →
  CSSSelector.highest m (kind_name <$> H) = Z.max m (max_rank H).
Proof.
  revert m. induction H as [|K H IH]; intros m Hm; simpl.
  - lia.
  - pose proof (rank_bounds K).
    rewrite indexOf_rank, IH; destruct (Z.ltb_spec m (rank K)); lia.
Qed.

Lemma misordered_rank K H :
  misordered (kind_name K :: (kind_name <$> rev H))
  = (rank K <? max_rank H).
Proof.
  unfold misordered. simpl.
  rewrite indexOf_rank, highest_max_rank, max_rank_rev by done.
  pose proof (max_rank_nonneg H). by rewrite Z.max_r.
Qed.

Lemma count_of_occurrences K H :
  count_of (kind_name K) (kind_name <$> H) = occurrences K H.
Proof.
  unfold count_of, occurrences.
  induction H as [|K' H IH]; [done|].
  rewrite fmap_cons. cbn [List.filter]. rewrite kind_name_eqb.
  destruct (bool_decide (K' = K)); cbn [length]; by rewrite IH.
Qed.

Lemma occurrences_app K H1 H2 :
  occurrences K (H1 ++ H2) = (occurrences K H1 + occurrences K H2)%nat.
Proof. unfold occurrences. by rewrite List.filter_app, length_app. Qed.

Lemma occurrences_rev K H : occurrences K (rev H) = occurrences K H.
Proof.
  induction H as [|K' H IH]; [done|].
  simpl. rewrite occurrences_app, IH. unfold occurrences. simpl.
  destruct (bool_decide _); simpl; lia.
Qed.

Lemma occurrences_elem K H : K ∈ H → (1 ≤ occurrences K H)%nat.
Proof.
  unfold occurrences.
  induction 1 as [K H|K K' H _ IH]; simpl.
  - rewrite bool_decide_eq_true_2 by done. simpl. lia.
  - destruct (bool_decide _); simpl; lia.
Qed.

(** The three tests of [checkUniqueness] decide [unique_history]. *)
Lemma duplicated_unique H :
  duplicated (kind_name <$> rev H) = negb (unique_history H).
Proof.
  unfold duplicated, unique_history.
  change "element" with (kind_name Element).
  change "id" with (kind_name Id).
  change "pseudoElement" with (kind_name PseudoElement).
  rewrite !count_of_occurrences, !occurrences_rev.
  rewrite !negb_andb, !Nat.leb_antisym, !negb_involutive. done.
Qed.

Lemma unique_history_app_l H1 H2 :
  unique_history (H1 ++ H2) = true → unique_history H1 = true.
Proof.
  unfold unique_history. rewrite !occurrences_app.
  rewrite !andb_true_iff, !Nat.leb_le. lia.
Qed.

Lemma unique_history_elem K H :
  unique_kind K = true → K ∈ H → unique_history (H ++ [K]) = false.
Proof.
  intros HK Hin%occurrences_elem.
  apply not_true_is_false. unfold unique_history.
  rewrite !occurrences_app, !andb_true_iff, !Nat.leb_le.
  destruct K; try done; unfold occurrences at 2 4 6; simpl; lia.
Qed.

Lemma respects_order_from_app m H1 H2 :
  0 ≤ m →
  respects_order_from m (H1 ++ H2)
  = respects_order_from m H1
    && respects_order_from (Z.max m (max_rank H1)) H2.
Proof.
  revert m. induction H1 as [|K H1 IH]; intros m Hm.
  - cbn [app respects_order_from max_rank foldr andb].
    by rewrite Z.max_l by lia.
  - cbn [app respects_order_from max_rank foldr].
    rewrite IH by lia. by rewrite <-andb_assoc, Z.max_assoc.
Qed.

Lemma respects_order_snoc H K H' :
  respects_order (H ++ K :: H') = true → max_rank H ≤ rank K.
Proof.
  unfold respects_order. rewrite respects_order_from_app by done. simpl.
  rewrite !andb_true_iff, Z.leb_le.
  pose proof (max_rank_nonneg H). lia.
Qed.

Lemma respects_order_app_l H1 H2 :
  respects_order (H1 ++ H2) = true → respects_order H1 = true.
Proof.
  unfold respects_order. rewrite respects_order_from_app by done.
  by intros [? _]%andb_true_iff.
Qed.
End vocabulary.

(** ** The operations on constructed selectors *)

Section operations.
Implicit Types (h : heap) (s : loc) (K : FragmentKind)
  (H : list FragmentKind).

Lemma selector_at_frame h ext s v H :
  selector_at h s v H → selector_at (h ++ ext) s v H.
Proof. intros (a & Hs & Ha). exists a. eauto using lookup_old. Qed.

Lemma selector_at_stringify h s v H :
  selector_at h s v H → CSSSelector.stringify s h = (h, Return v).
Proof. intros (a & Hs & _). apply (get_value_run _ _ _ Hs). Qed.

Lemma selector_at_last h v H :
  selector_at
    (h ++ [Arr (kind_name <$> rev H); Obj (Fields v (Some (length h)))])
    (S (length h)) v H.
Proof.
  exists (length h). split.
  - rewrite lookup_app_r by lia.
    by replace (S (length h) - length h)%nat with 1%nat by lia.
  - rewrite lookup_app_r by lia. by rewrite Nat.sub_diag.
Qed.

(** An instance call allocates the copied array and the new object, and
    then reports what the two checks find, uniqueness first. *)
Lemma append_run h s v H K val :
  selector_at h s v H →
  append K s val h =
    (h ++ [Arr (kind_name <$> rev (H ++ [K]));
           Obj (Fields (v +:+ delimited K val) (Some (length h)))],
     if negb (unique_history (H ++ [K]))
     then Throw (Error CSSSelector.uniqueness_error)
     else if rank K <? max_rank H
          then Throw (Error CSSSelector.order_error)
          else Return (S (length h))).
Proof.
  intros (a & Hs & Ha).
  rewrite append_extend, (extend_run _ _ _ _ _ _ _ Hs Ha).
  rewrite fragment_delimited, rev_unit, fmap_cons. f_equal.
  unfold verdict.
  rewrite misordered_rank, <-fmap_cons, <-rev_unit, duplicated_unique.
  destruct (unique_history (H ++ [K])); simpl; [|done].
  by destruct (rank K <? max_rank H).
Qed.

Lemma factory_run h K val :
  factory K val h =
    (h ++ [Arr (kind_name <$> rev [K]);
           Obj (Fields (delimited K val) (Some (length h)))],
     Return (S (length h))).
Proof.
  rewrite factory_create, create_run, fragment_delimited.
  by destruct K.
Qed.

Lemma appends_run fs : ∀ h s v H,
  selector_at h s v H →
  respects_order (H ++ fs.*1) = true →
  unique_history (H ++ fs.*1) = true →
  ∃ ext s',
    appends s fs h = (h ++ ext, Return s')
    ∧ selector_at (h ++ ext) s' (v +:+ render fs) (H ++ fs.*1).
Proof.
  induction fs as [|[K val] fs IH]; intros h s v H Hsel Hord Huniq.
  - exists [], s. simpl.
    by rewrite !app_nil_r, append_nil_r.
  - rewrite fmap_cons in Hord, Huniq. cbn [fst] in Hord, Huniq.
    assert (Hu : unique_history (H ++ [K]) = true).
    { apply (unique_history_app_l _ (fs.*1)). by rewrite <-app_assoc. }
    pose proof (respects_order_snoc _ _ _ Hord) as Hr.
    pose proof (selector_at_last h (v +:+ delimited K val) (H ++ [K]))
      as Hlast.
    destruct (IH _ _ _ _ Hlast) as (ext & s' & Hrun & Hsel');
      [by rewrite <-app_assoc..|].
    cbn [appends]. unfold mbind, M_bind, bind. cbn [fst snd].
    rewrite (append_run _ _ _ _ _ _ Hsel), Hu. cbn [negb].
    destruct (Z.ltb_spec (rank K) (max_rank H)) as [|_]; [lia|].
    rewrite Hrun. eexists (_ ++ ext), s'. rewrite app_assoc.
    split; [done|].
    rewrite append_assoc, <-(app_assoc H [K]) in Hsel'. exact Hsel'.
Qed.
End operations.

(** ** The two checks on a constructed selector *)

Section checks.
Implicit Types (h : heap) (s this : loc) (K : FragmentKind)
  (H : list FragmentKind).

Lemma selector_at_get_type h s v H :
  selector_at h s v H → get_type s h = (h, Return (kind_name <$> rev H)).
Proof. intros (a & Hs & Ha). exact (get_type_run _ _ _ _ _ Hs Ha). Qed.

Lemma checkUniqueness_at h this v H :
  selector_at h this v H →
  CSSSelector.checkUniqueness this h =
    (h, if unique_history H then Return tt
        else Throw (Error CSSSelector.uniqueness_error)).
Proof.
  intros Ht%selector_at_get_type.
  rewrite (checkUniqueness_run _ _ _ Ht), duplicated_unique.
  by destruct (unique_history H).
Qed.

Lemma checkOrder_at h this v H K :
  selector_at h this v (H ++ [K]) →
  CSSSelector.checkOrder this h =
    (h, if rank K <? max_rank H
        then Throw (Error CSSSelector.order_error)
        else Return tt).
Proof.
  intros Ht%selector_at_get_type.
  rewrite (checkOrder_run _ _ _ Ht), rev_unit, fmap_cons.
  by rewrite misordered_rank.
Qed.

(** The store an instance call leaves, and the object it built there. *)
Lemma append_store h s v H K val :
  selector_at h s v H →
  ∃ ext, (append K s val h).1 = h ++ ext
         ∧ selector_at (h ++ ext) (S (length h))
                       (v +:+ delimited K val) (H ++ [K]).
Proof.
  intros Hsel. rewrite (append_run _ _ _ _ _ _ Hsel).
  eexists. split; [done|]. apply selector_at_last.
Qed.
End checks.

(** ** Duplicate fragments *)

(** C1, as the source has it.  Appending a fragment of kind Element, Id or
    PseudoElement to a selector whose history already holds that kind throws,
    whatever else the history holds, and no selector is returned.  The error
    is the one with message "Element, id and pseudo-element should not occur
    more then one time inside the selector" (the source spells it "then"). *)
Theorem duplicate_append_throws h s v H K val :
  selector_at h s v H →
  unique_kind K = true →
  K ∈ H →
  (append K s val h).2 =
    Throw (Error "Element, id and pseudo-element should not occur more then one time inside the selector").
Proof.
  intros Hsel HK Hin.
  rewrite (append_run _ _ _ _ _ _ Hsel).
  by rewrite (unique_history_elem _ _ HK Hin).
Qed.

Lemma duplicate_append_throws_witness :
  selector_at table_x 3 "table.x" [Element; Class]
  ∧ (append Element 3 "div" table_x).2 =
    Throw (Error "Element, id and pseudo-element should not occur more then one time inside the selector").
Proof.
  assert (Hsel : selector_at table_x 3 "table.x" [Element; Class]).
  { exists 2%nat. split; reflexivity. }
  split; [exact Hsel|].
  apply (duplicate_append_throws _ _ _ _ Element "div" Hsel).
  - reflexivity.
  - apply list_elem_of_here.
Defined.

(** The message the specification quotes ("more than one time") is not the
    one thrown: [builder.element('table').element('div')]. *)
Lemma duplicate_message_spelling :
  ∃ h s,
    cssSelectorBuilder.element "table" [] = (h, Return s)
    ∧ selector_at h s "table" [Element]
    ∧ (CSSSelector.element s "div" h).2 ≠
      Throw (Error "Element, id and pseudo-element should not occur more than one time inside the selector").
Proof.
  eexists _, _. split; [reflexivity|]. split.
  - exists 0%nat. split; reflexivity.
  - vm_compute. discriminate.
Qed.

(** ** The order of fragments *)

(** C2, as amended.  Take an instance call of kind K on a selector with
    history H.  The ordering check made on the new object throws the Error
    with message "Selector parts should be arranged in the following order:
    element, id, class, attribute, pseudo-class, pseudo-element" when
    rank(K) is below the maximum rank of H (0 for the empty history), and
    passes when rank(K) is at least that maximum, equality included.  When
    the uniqueness check does not fire, that is the outcome of the call: the
    ordering error in the first case, the new selector in the second. *)
Theorem append_order_check h s v H K val :
  selector_at h s v H →
  (CSSSelector.checkOrder (S (length h)) (append K s val h).1).2 =
    (if rank K <? max_rank H
     then Throw (Error "Selector parts should be arranged in the following order: element, id, class, attribute, pseudo-class, pseudo-element")
     else Return tt)
  ∧ (unique_history (H ++ [K]) = true →
     (append K s val h).2 =
       if rank K <? max_rank H
       then Throw (Error "Selector parts should be arranged in the following order: element, id, class, attribute, pseudo-class, pseudo-element")
       else Return (S (length h))).
Proof.
  intros Hsel. split.
  - destruct (append_store _ _ _ _ K val Hsel) as (ext & -> & Hnew).
    by rewrite (checkOrder_at _ _ _ _ _ Hnew).
  - intros Hu. by rewrite (append_run _ _ _ _ _ _ Hsel), Hu.
Qed.

Lemma append_order_check_witness :
  selector_at table_x 3 "table.x" [Element; Class]
  ∧ (append Id 3 "main" table_x).2 =
      Throw (Error "Selector parts should be arranged in the following order: element, id, class, attribute, pseudo-class, pseudo-element")
  ∧ (append Class 3 "y" table_x).2 = Return 5%nat.
Proof.
  assert (Hsel : selector_at table_x 3 "table.x" [Element; Class]).
  { exists 2%nat. split; reflexivity. }
  split; [exact Hsel|]. split.
  - apply (append_order_check _ _ _ _ Id "main" Hsel). reflexivity.
  - apply (append_order_check _ _ _ _ Class "y" Hsel). reflexivity.
Defined.

(** [builder.element('table').class('x').element('div')]: the rank of
    Element is below the maximum of the history, and the call fails with the
    uniqueness error, not with the ordering error. *)
Lemma order_error_preempted :
  selector_at table_x 3 "table.x" [Element; Class]
  ∧ rank Element < max_rank [Element; Class]
  ∧ (append Element 3 "div" table_x).2 ≠
    Throw (Error "Selector parts should be arranged in the following order: element, id, class, attribute, pseudo-class, pseudo-element").
Proof.
  split; [exists 2%nat; split; reflexivity|].
  split; [reflexivity|]. vm_compute. discriminate.
Qed.

(** C5.  When the appended kind both repeats an Element, Id or
    PseudoElement of the history and ranks below the history's maximum, each
    of the two checks would throw on the new object, and the call throws the
    uniqueness error: the constructor runs [checkUniqueness] first. *)
Theorem duplicate_before_order h s v H K val :
  selector_at h s v H →
  unique_kind K = true →
  K ∈ H →
  rank K < max_rank H →
  let this := S (length h) in
  let h' := (append K s val h).1 in
  (CSSSelector.checkUniqueness this h').2
    = Throw (Error CSSSelector.uniqueness_error)
  ∧ (CSSSelector.checkOrder this h').2 = Throw (Error CSSSelector.order_error)
  ∧ (append K s val h).2 = Throw (Error CSSSelector.uniqueness_error)
  ∧ (append K s val h).2 ≠ Throw (Error CSSSelector.order_error).
Proof.
  intros Hsel HK Hin Hlt this h'. subst this h'.
  pose proof (unique_history_elem _ _ HK Hin) as Hu.
  destruct (append_store _ _ _ _ K val Hsel) as (ext & Hext & Hnew).
  rewrite Hext, (checkUniqueness_at _ _ _ _ Hnew), Hu.
  rewrite (checkOrder_at _ _ _ _ _ Hnew).
  rewrite (append_run _ _ _ _ _ _ Hsel), Hu.
  destruct (Z.ltb_spec (rank K) (max_rank H)); [|lia].
  by repeat split.
Qed.

Lemma duplicate_before_order_witness :
  selector_at table_x 3 "table.x" [Element; Class]
  ∧ (append Element 3 "div" table_x).2
    = Throw (Error CSSSelector.uniqueness_error).
Proof.
  assert (Hsel : selector_at table_x 3 "table.x" [Element; Class]).
  { exists 2%nat. split; reflexivity. }
  split; [exact Hsel|].
  apply (duplicate_before_order _ _ _ _ Element "div" Hsel).
  - reflexivity.
  - apply list_elem_of_here.
  - reflexivity.
Defined.

(** ** Chains of fragments *)

Section chains.
Implicit Types (h : heap) (K : FragmentKind) (H : list FragmentKind)
  (f : Fragment) (fs : list Fragment).

Lemma respects_order_from_weaken m m' H :
  m' ≤ m → respects_order_from m H = true → respects_order_from m' H = true.
Proof.
  revert m m'. induction H as [|K H IH]; intros m m' Hm; [done|].
  cbn [respects_order_from]. rewrite !andb_true_iff, !Z.leb_le.
  intros [? Hrest]. split; [lia|].
  apply (IH (Z.max m (rank K))); [lia|done].
Qed.

Lemma respects_order_cons K H :
  respects_order (K :: H) = true →
  respects_order H = true ∧ ∀ K', K' ∈ H → rank K ≤ rank K'.
Proof.
  intros Hord. split.
  - unfold respects_order in *. cbn [respects_order_from] in Hord.
    apply andb_true_iff in Hord as [_ Hord].
    apply (respects_order_from_weaken _ 0) in Hord; [done|].
    pose proof (rank_bounds K). lia.
  - intros K' (H1 & H2 & ->)%list_elem_of_split.
    pose proof (respects_order_snoc (K :: H1) K' H2 Hord) as Hle.
    cbn [max_rank foldr] in Hle. lia.
Qed.

Lemma filter_kind_none K fs :
  (∀ K', K' ∈ fs.*1 → K' ≠ K) →
  List.filter (λ f : Fragment, bool_decide (f.1 = K)) fs = [].
Proof.
  induction fs as [|[K' val] fs IH]; intros Hne; [done|].
  cbn [List.filter fst].
  rewrite bool_decide_eq_false_2.
  - apply IH. intros K'' Hin. apply Hne. rewrite fmap_cons. by right.
  - apply Hne. rewrite fmap_cons. by left.
Qed.

(** Calls made in precedence order are already grouped by kind. *)
Lemma in_precedence_order_sorted fs :
  respects_order fs.*1 = true → in_precedence_order fs = fs.
Proof.
  induction fs as [|[K val] fs IH]; [done|].
  rewrite fmap_cons. intros [Hord Hge]%respects_order_cons.
  specialize (IH Hord).
  assert (Hlow : ∀ K', rank K' < rank K →
            List.filter (λ f : Fragment, bool_decide (f.1 = K')) fs = []).
  { intros K' Hlt. apply filter_kind_none.
    intros K'' Hin%Hge ->. cbn [fst] in Hin. lia. }
  unfold in_precedence_order, precedence in *.
  cbn [flat_map List.filter fst] in *.
  destruct K; repeat (case_bool_decide; try done);
    repeat match goal with
      | |- context [List.filter (λ f : Fragment, bool_decide (f.1 = ?K')) fs] =>
          rewrite (Hlow K') in * by (cbn; lia)
      end;
    cbn [app] in *; by rewrite IH.
Qed.

Lemma chain_run f fs h :
  respects_order (f :: fs).*1 = true →
  unique_history (f :: fs).*1 = true →
  ∃ ext s,
    chain f fs h = (h ++ ext, Return s)
    ∧ selector_at (h ++ ext) s (render (f :: fs)) (f :: fs).*1.
Proof.
  destruct f as [K val]. rewrite fmap_cons. cbn [fst]. intros Hord Huniq.
  unfold chain, mbind, M_bind, bind. cbn [fst snd].
  rewrite factory_run.
  destruct (appends_run fs _ _ _ [K]
              (selector_at_last h (delimited K val) [K]) Hord Huniq)
    as (ext & s & Hrun & Hsel).
  rewrite Hrun. rewrite <-app_assoc in *. by eexists _, s.
Qed.
End chains.

(** C3.  A chain of calls whose kinds respect the precedence order and
    which holds at most one Element, one Id and one PseudoElement succeeds,
    and the selector it returns stringifies to the concatenation of the
    delimited fragment texts taken in precedence order, fragments of one kind
    in the order of the calls; the delimiters are those of [delimited].  For
    such a chain that order is the order of the calls. *)
Theorem chain_stringify f fs h :
  respects_order (f :: fs).*1 = true →
  unique_history (f :: fs).*1 = true →
  ∃ h' s,
    chain f fs h = (h', Return s)
    ∧ CSSSelector.stringify s h' =
        (h', Return (render (in_precedence_order (f :: fs))))
    ∧ in_precedence_order (f :: fs) = f :: fs.
Proof.
  intros Hord Huniq.
  destruct (chain_run f fs h Hord Huniq) as (ext & s & Hrun & Hsel).
  exists (h ++ ext), s. split; [done|].
  rewrite (in_precedence_order_sorted _ Hord).
  split; [|done]. exact (selector_at_stringify _ _ _ _ Hsel).
Qed.

Lemma chain_stringify_witness :
  ∃ h' s,
    chain (Element, "a")
          [(Id, "main"); (Class, "container"); (Attribute, "x");
           (Attribute, "y"); (PseudoElement, "after")] [] = (h', Return s)
    ∧ CSSSelector.stringify s h' =
        (h', Return "a#main.container[x][y]::after").
Proof.
  destruct (chain_stringify (Element, "a")
              [(Id, "main"); (Class, "container"); (Attribute, "x");
               (Attribute, "y"); (PseudoElement, "after")] []
              eq_refl eq_refl) as (h' & s & Hrun & Hstr & _).
  exists h', s. split; [exact Hrun|exact Hstr].
Defined.

(** ** The reference chains *)

Lemma append_returns h s v H K val :
  selector_at h s v H →
  unique_history (H ++ [K]) = true →
  (rank K <? max_rank H) = false →
  append K s val h =
    (h ++ [Arr (kind_name <$> rev (H ++ [K]));
           Obj (Fields (v +:+ delimited K val) (Some (length h)))],
     Return (S (length h))).
Proof. intros Hsel Hu Hr. by rewrite (append_run _ _ _ _ _ _ Hsel), Hu, Hr. Qed.

(** One call of a chain: the factory on any store, or an instance call on
    the selector the previous call has just built. *)
Ltac chain_step :=
  first
    [ rewrite factory_run
    | erewrite append_returns
        by first [apply selector_at_last | reflexivity] ].

(** C7.  On any store,
    [element('a').id('main').class('container').class('editable')]
    stringifies to [a#main.container.editable] and
    [element('a').attr('href$=".png"').pseudoClass('focus')] stringifies to
    [a[href$=".png"]:focus]. *)
Theorem reference_chains h :
  ((s ← cssSelectorBuilder.element "a";
    s ← CSSSelector.id s "main";
    s ← CSSSelector.class s "container";
    s ← CSSSelector.class s "editable";
    CSSSelector.stringify s) h).2
  = Return "a#main.container.editable"
  ∧ ((s ← cssSelectorBuilder.element "a";
      s ← CSSSelector.attr s ("href$=" +:+ dquote +:+ ".png" +:+ dquote);
      s ← CSSSelector.pseudoClass s "focus";
      CSSSelector.stringify s) h).2
    = Return ("a[href$=" +:+ dquote +:+ ".png" +:+ dquote +:+ "]:focus").
Proof.
  change cssSelectorBuilder.element with (factory Element).
  change CSSSelector.id with (append Id).
  change CSSSelector.class with (append Class).
  change CSSSelector.attr with (append Attribute).
  change CSSSelector.pseudoClass with (append PseudoClass).
  unfold mbind, M_bind, bind. split.
  - do 4 chain_step.
    by erewrite selector_at_stringify by apply selector_at_last.
  - do 3 chain_step.
    by erewrite selector_at_stringify by apply selector_at_last.
Qed.

(** ** Combined selectors *)

Lemma stringify_Return h s v :
  (CSSSelector.stringify s h).2 = Return v →
  ∃ o, h !! s = Some (Obj o) ∧ value o = v.
Proof.
  unfold CSSSelector.stringify.
  destruct (get_value s h) as [h' r] eqn:E. cbn [snd]. intros ->.
  by apply get_value_Return in E as [_ ?].
Qed.

Lemma combine_selector h s1 c s2 v1 v2 :
  (CSSSelector.stringify s1 h).2 = Return v1 →
  (CSSSelector.stringify s2 h).2 = Return v2 →
  ∃ ext,
    cssSelectorBuilder.combine s1 c s2 h = (h ++ ext, Return (S (length h)))
    ∧ selector_at (h ++ ext) (S (length h))
                  (v1 +:+ " " +:+ c +:+ " " +:+ v2) [Element].
Proof.
  intros (o1 & H1 & <-)%stringify_Return (o2 & H2 & <-)%stringify_Return.
  unfold cssSelectorBuilder.combine.
  rewrite (combine_run _ _ _ _ _ c H1 H2).
  eexists. split; [done|]. apply (selector_at_last h _ [Element]).
Qed.

Lemma combine_Return h s1 c s2 h' s :
  cssSelectorBuilder.combine s1 c s2 h = (h', Return s) →
  ∃ v1 v2,
    (CSSSelector.stringify s1 h).2 = Return v1
    ∧ (CSSSelector.stringify s2 h).2 = Return v2.
Proof.
  unfold cssSelectorBuilder.combine, CSSSelector.combine.
  unfold mbind, M_bind, bind.
  destruct (CSSSelector.stringify s1 h) as [h1 [v1|e]] eqn:E1; [|done].
  apply get_value_Return in E1 as E1'. destruct E1' as [-> _].
  destruct (CSSSelector.stringify s2 h) as [h2 [v2|e]] eqn:E2; [|done].
  by exists v1, v2.
Qed.

(** C4.  For selectors [selector1] and [selector2] and any string
    [combinator], [combine] succeeds, without any check of the combinator,
    and the result stringifies to the text of [selector1], a space, the
    combinator, a space, and the text of [selector2].  The operands may be
    combined selectors themselves. *)
Theorem combine_stringify h selector1 combinator selector2 v1 v2 :
  (CSSSelector.stringify selector1 h).2 = Return v1 →
  (CSSSelector.stringify selector2 h).2 = Return v2 →
  ∃ h' s,
    cssSelectorBuilder.combine selector1 combinator selector2 h
    = (h', Return s)
    ∧ CSSSelector.stringify s h' =
        (h', Return (v1 +:+ " " +:+ combinator +:+ " " +:+ v2)).
Proof.
  intros Hv1 Hv2.
  destruct (combine_selector h selector1 combinator selector2 v1 v2 Hv1 Hv2)
    as (ext & Hrun & Hsel).
  eexists _, _. split; [exact Hrun|].
  exact (selector_at_stringify _ _ _ _ Hsel).
Qed.

Lemma combine_stringify_witness :
  (∃ h' s,
     cssSelectorBuilder.combine 3 "+" 7 div_table = (h', Return s)
     ∧ CSSSelector.stringify s h' = (h', Return "div#main + table#data"))
  ∧ (∃ h' s,
       cssSelectorBuilder.combine 3 "~" 9 div_plus_table = (h', Return s)
       ∧ CSSSelector.stringify s h' =
           (h', Return "div#main ~ div#main + table#data")).
Proof.
  split.
  - exact (combine_stringify div_table 3 "+" 7 "div#main" "table#data"
             eq_refl eq_refl).
  - exact (combine_stringify div_plus_table 3 "~" 9
             "div#main" "div#main + table#data" eq_refl eq_refl).
Defined.

(** C10.  A selector returned by [combine] has the history of a single
    Element.  On it, [element] throws the uniqueness error, and [id],
    [class], [attr], [pseudoClass] and [pseudoElement] succeed, the new
    selector stringifying to the text of the combined selector followed by
    the delimited fragment. *)
Theorem combined_is_element h selector1 combinator selector2 h' c :
  cssSelectorBuilder.combine selector1 combinator selector2 h
  = (h', Return c) →
  ∃ v,
    selector_at h' c v [Element]
    ∧ CSSSelector.stringify c h' = (h', Return v)
    ∧ (∀ val, (CSSSelector.element c val h').2 =
              Throw (Error CSSSelector.uniqueness_error))
    ∧ (∀ K val, K ≠ Element →
         ∃ h'' c',
           append K c val h' = (h'', Return c')
           ∧ CSSSelector.stringify c' h'' =
               (h'', Return (v +:+ delimited K val))).
Proof.
  intros Hrun.
  destruct (combine_Return _ _ _ _ _ _ Hrun) as (v1 & v2 & Hv1 & Hv2).
  destruct (combine_selector h selector1 combinator selector2 v1 v2 Hv1 Hv2)
    as (ext & Hrun' & Hsel).
  rewrite Hrun in Hrun'. injection Hrun' as -> ->.
  eexists. split; [exact Hsel|].
  split; [exact (selector_at_stringify _ _ _ _ Hsel)|]. split.
  - intros val. change CSSSelector.element with (append Element).
    by rewrite (append_run _ _ _ _ Element val Hsel).
  - intros K val HK.
    rewrite (append_returns _ _ _ _ K val Hsel) by (by destruct K).
    eexists _, _. split; [done|].
    apply (selector_at_stringify _ _ _ ([Element] ++ [K])), selector_at_last.
Qed.

Lemma combined_is_element_witness :
  ∃ v,
    selector_at div_plus_table 9 v [Element]
    ∧ (CSSSelector.element 9 "p" div_plus_table).2 =
      Throw (Error CSSSelector.uniqueness_error).
Proof.
  destruct (combined_is_element div_table 3 "+" 7 div_plus_table 9 eq_refl)
    as (v & Hsel & _ & Helem & _).
  exists v. split; [exact Hsel|exact (Helem "p")].
Defined.

(** ** What the operations leave untouched *)

(** The rendered text a continuation gives, or the error it throws. *)
Lemma continuation_text h s v H K val :
  selector_at h s v H →
  ((s' ← append K s val; CSSSelector.stringify s') h).2 =
    if negb (unique_history (H ++ [K]))
    then Throw (Error CSSSelector.uniqueness_error)
    else if rank K <? max_rank H
         then Throw (Error CSSSelector.order_error)
         else Return (v +:+ delimited K val).
Proof.
  intros Hsel. unfold mbind, M_bind, bind.
  rewrite (append_run _ _ _ _ _ _ Hsel).
  destruct (negb _); [done|]. destruct (rank K <? max_rank H); [done|].
  by rewrite (selector_at_stringify _ _ _ _ (selector_at_last h _ _)).
Qed.

(** C6.  An instance call on a selector [s], whether it returns or throws,
    only adds cells to the store: every cell that was there is unchanged, so
    [s] keeps its text and its history and stringifies as before.  Any
    further call on [s] then gives the text, or the error, it would have
    given before. *)
Theorem append_leaves_receiver h s v H K val :
  selector_at h s v H →
  let h' := (append K s val h).1 in
  (∀ l c, h !! l = Some c → h' !! l = Some c)
  ∧ selector_at h' s v H
  ∧ CSSSelector.stringify s h = (h, Return v)
  ∧ CSSSelector.stringify s h' = (h', Return v)
  ∧ (∀ K2 val2,
       ((s' ← append K2 s val2; CSSSelector.stringify s') h').2
       = ((s' ← append K2 s val2; CSSSelector.stringify s') h).2).
Proof.
  intros Hsel h'.
  destruct (append_store _ _ _ _ K val Hsel) as (ext & Hext & _).
  subst h'. rewrite Hext.
  pose proof (selector_at_frame _ ext _ _ _ Hsel) as Hsel'.
  split; [intros l c; apply lookup_old|].
  split; [exact Hsel'|].
  split; [exact (selector_at_stringify _ _ _ _ Hsel)|].
  split; [exact (selector_at_stringify _ _ _ _ Hsel')|].
  intros K2 val2.
  by rewrite (continuation_text _ _ _ _ K2 val2 Hsel),
             (continuation_text _ _ _ _ K2 val2 Hsel').
Qed.

Lemma append_leaves_receiver_witness :
  selector_at (append Element 3 "div" table_x).1 3 "table.x" [Element; Class]
  ∧ selector_at (append PseudoClass 3 "hover" table_x).1 3 "table.x"
                [Element; Class].
Proof.
  assert (Hsel : selector_at table_x 3 "table.x" [Element; Class]).
  { exists 2%nat. split; reflexivity. }
  split.
  - exact (proj1 (proj2
             (append_leaves_receiver _ _ _ _ Element "div" Hsel))).
  - exact (proj1 (proj2
             (append_leaves_receiver _ _ _ _ PseudoClass "hover" Hsel))).
Defined.

(** C9.  [stringify] leaves the store as it found it, and a second call on
    the same reference gives the same outcome as the first. *)
Theorem stringify_twice h s :
  let first := CSSSelector.stringify s h in
  let second := CSSSelector.stringify s first.1 in
  first.1 = h ∧ second.1 = h ∧ second.2 = first.2.
Proof.
  cbn zeta. unfold CSSSelector.stringify.
  by rewrite !get_value_heap.
Qed.

(** ** The uniqueness invariant *)

Lemma unique_history_singleton K : unique_history [K] = true.
Proof. by destruct K. Qed.

(** C8.  Every selector the public interface has handed out, by a factory
    operation, an instance operation or [combine], is a constructed selector
    whose history holds at most one Element, one Id and one PseudoElement. *)
Theorem client_unique h known s :
  client h known →
  s ∈ known →
  ∃ v H,
    selector_at h s v H
    ∧ (occurrences Element H ≤ 1)%nat
    ∧ (occurrences Id H ≤ 1)%nat
    ∧ (occurrences PseudoElement H ≤ 1)%nat.
Proof.
  intros Hc. revert s.
  assert (Hinv : ∀ s, s ∈ known →
            ∃ v H, selector_at h s v H ∧ unique_history H = true).
  { induction Hc as [|h known K val h' r Hc IH Hrun
                      |h known K s0 val h' r Hc IH Hin Hrun
                      |h known s1 c s2 h' r Hc IH Hin1 Hin2 Hrun];
      intros s Hs.
    - by apply elem_of_nil in Hs.
    - rewrite factory_run in Hrun. injection Hrun as <- <-.
      apply elem_of_cons in Hs as [->|Hs].
      + eexists _, [K]. split; [apply (selector_at_last h _ [K])|].
        apply unique_history_singleton.
      + destruct (IH s Hs) as (v & H & Hsel & Hu).
        exists v, H. split; [by apply selector_at_frame|done].
    - destruct (IH s0 Hin) as (v0 & H0 & Hsel0 & Hu0).
      rewrite (append_run _ _ _ _ _ _ Hsel0) in Hrun.
      injection Hrun as <- <-.
      assert (Hold : s ∈ known →
                ∃ v H, selector_at (h ++ [Arr (kind_name <$> rev (H0 ++ [K]));
                         Obj (Fields (v0 +:+ delimited K val)
                                     (Some (length h)))]) s v H
                       ∧ unique_history H = true).
      { intros Hs'. destruct (IH s Hs') as (v & H & Hsel & Hu).
        exists v, H. split; [by apply selector_at_frame|done]. }
      destruct (unique_history (H0 ++ [K])) eqn:Hu; cbn [negb] in Hs;
        [destruct (rank K <? max_rank H0)|]; cbn [returned app] in Hs;
        try (by apply Hold).
      apply elem_of_cons in Hs as [->|Hs]; [|by apply Hold].
      eexists _, (H0 ++ [K]).
      split; [apply (selector_at_last h _ (H0 ++ [K]))|done].
    - destruct (IH s1 Hin1) as (v1 & H1 & Hsel1 & _).
      destruct (IH s2 Hin2) as (v2 & H2 & Hsel2 & _).
      destruct (combine_selector h s1 c s2 v1 v2) as (ext & Hrun' & Hsel).
      { by rewrite (selector_at_stringify _ _ _ _ Hsel1). }
      { by rewrite (selector_at_stringify _ _ _ _ Hsel2). }
      rewrite Hrun' in Hrun. injection Hrun as <- <-.
      apply elem_of_cons in Hs as [->|Hs].
      + by eexists _, [Element].
      + destruct (IH s Hs) as (v & H & Hsel' & Hu).
        exists v, H. split; [by apply selector_at_frame|done]. }
  intros s Hs. destruct (Hinv s Hs) as (v & H & Hsel & Hu).
  exists v, H. split; [done|].
  unfold unique_history in Hu.
  rewrite !andb_true_iff, !Nat.leb_le in Hu. tauto.
Qed.

Lemma client_unique_witness :
  ∃ v H,
    selector_at table_x 3 v H
    ∧ (occurrences Element H ≤ 1)%nat
    ∧ (occurrences Id H ≤ 1)%nat
    ∧ (occurrences PseudoElement H ≤ 1)%nat.
Proof.
  apply (client_unique table_x [3; 1]%nat 3).
  - apply (client_append (cssSelectorBuilder.element "table" []).1 [1%nat]
             Class 1 "x" table_x (Return 3%nat)).
    + apply (client_factory [] [] Element "table" _ (Return 1%nat)).
      * apply client_start.
      * reflexivity.
    + apply list_elem_of_here.
    + reflexivity.
  - apply list_elem_of_here.
Defined.

(** * Further properties of the builder *)

(** ** Acceptance of a single call *)

Lemma selector_at_bound h s v H : selector_at h s v H → (s < length h)%nat.
Proof. intros (a & Hs & _). by apply lookup_lt_Some in Hs. Qed.

(** X1.  An instance call of kind K on a selector with history H returns
    exactly when H with K appended still holds at most one Element, Id and
    PseudoElement and rank(K) is at least the maximum rank of H.  The
    selector it returns is a new object, distinct from the receiver, with
    history H followed by K and the receiver's text followed by the
    delimited fragment.  When the call throws, the error is one of the two
    Errors of the class. *)
Theorem append_returns_iff h s v H K val :
  selector_at h s v H →
  ((∃ s', (append K s val h).2 = Return s')
   ↔ unique_history (H ++ [K]) = true ∧ max_rank H ≤ rank K)
  ∧ (∀ s', (append K s val h).2 = Return s' →
       h !! s' = None ∧ s' ≠ s
       ∧ selector_at (append K s val h).1 s'
                     (v +:+ delimited K val) (H ++ [K]))
  ∧ (∀ e, (append K s val h).2 = Throw e →
       e = Error CSSSelector.uniqueness_error
       ∨ e = Error CSSSelector.order_error).
Proof.
  intros Hsel. pose proof (selector_at_bound _ _ _ _ Hsel) as Hlt.
  rewrite (append_run _ _ _ _ _ _ Hsel). cbn [fst snd].
  destruct (unique_history (H ++ [K])); cbn [negb];
    [destruct (Z.ltb_spec (rank K) (max_rank H))|].
  - split; [split; [by intros [? ?]|intros [_ ?]; lia]|].
    split; [done|]. intros e [= <-]. by right.
  - split; [split; [done|by eexists]|].
    split; [|done]. intros s' [= <-].
    split; [apply lookup_ge_None; lia|].
    split; [lia|]. apply selector_at_last.
  - split; [split; [by intros [? ?]|by intros [? _]]|].
    split; [done|]. intros e [= <-]. by left.
Qed.

Lemma append_returns_iff_witness :
  (∃ s', (append Class 3 "y" table_x).2 = Return s')
  ↔ unique_history ([Element; Class] ++ [Class]) = true
    ∧ max_rank [Element; Class] ≤ rank Class.
Proof.
  assert (Hsel : selector_at table_x 3 "table.x" [Element; Class]).
  { exists 2%nat. split; reflexivity. }
  exact (proj1 (append_returns_iff _ _ _ _ Class "y" Hsel)).
Defined.

(** X2.  A factory call never throws: on any store and for any kind and
    text it returns a new object, with the one-kind history and the
    delimited text, and leaves every cell of the store as it was. *)
Theorem factory_returns h K val :
  ∃ h' s,
    factory K val h = (h', Return s)
    ∧ h !! s = None
    ∧ selector_at h' s (delimited K val) [K]
    ∧ ∀ l c, h !! l = Some c → h' !! l = Some c.
Proof.
  rewrite factory_run. eexists _, _. split; [done|].
  split; [apply lookup_ge_None; lia|].
  split; [apply (selector_at_last h _ [K])|].
  intros l c. apply lookup_old.
Qed.

(** X3.  A pseudo-element is final: on a selector whose history holds a
    PseudoElement every instance call throws, the uniqueness error when the
    call repeats an Element, Id or PseudoElement and the ordering error
    otherwise. *)
Theorem pseudo_element_final h s v H K val :
  selector_at h s v H →
  PseudoElement ∈ H →
  (append K s val h).2 =
    Throw (Error (if unique_history (H ++ [K])
                  then CSSSelector.order_error
                  else CSSSelector.uniqueness_error)).
Proof.
  intros Hsel Hin. rewrite (append_run _ _ _ _ _ _ Hsel). cbn [snd].
  destruct (unique_history (H ++ [K])) eqn:Hu; cbn [negb]; [|done].
  pose proof (max_rank_elem _ _ Hin) as Hmax. cbn [rank] in Hmax.
  destruct (Z.ltb_spec (rank K) (max_rank H)) as [|Hge]; [done|].
  assert (K = PseudoElement) as ->
    by (destruct K; cbn [rank] in Hge; first [done|lia]).
  by rewrite (unique_history_elem PseudoElement H) in Hu.
Qed.

Lemma pseudo_element_final_witness :
  (append Class 3 "x"
     ((s ← cssSelectorBuilder.element "p";
       CSSSelector.pseudoElement s "after") []).1).2 =
  Throw (Error CSSSelector.order_error).
Proof.
  apply (pseudo_element_final _ 3 "p::after" [Element; PseudoElement]
           Class "x").
  - exists 2%nat. split; reflexivity.
  - apply list_elem_of_further, list_elem_of_here.
Defined.

(** ** The constructor on an unknown kind *)

Lemma highest_ge m ty : m ≤ CSSSelector.highest m ty.
Proof.
  revert m. induction ty as [|t ty IH]; intros m; cbn [CSSSelector.highest].
  - lia.
  - etrans; [|apply IH]. destruct (Z.ltb_spec m (indexOf CSSSelector.order t)); lia.
Qed.

Lemma fragment_unknown k val :
  indexOf_opt CSSSelector.order k = -1 →
  CSSSelector.fragment k val = EmptyString.
Proof.
  destruct k as [k|]; [|done].
  unfold indexOf_opt, indexOf, CSSSelector.order, CSSSelector.fragment.
  cbn [indexOf_from].
  rewrite !(String.eqb_sym k).
  repeat (destruct (String.eqb _ k); [intros; lia|]). done.
Qed.

(** X4.  The constructor rejects an unknown kind.  When the first element
    of the array it is given is missing (an empty array) or is not one of
    the six kind names, nothing is appended to the text and the constructor
    throws: the uniqueness error when the array repeats an element, id or
    pseudoElement, the ordering error otherwise. *)
Theorem new_rejects_unknown_kind h a ty val rem :
  h !! a = Some (Arr ty) →
  indexOf_opt CSSSelector.order (head ty) = -1 →
  CSSSelector.new val a rem h =
    (h ++ [Obj (Fields rem (Some a))],
     Throw (Error (if duplicated ty then CSSSelector.uniqueness_error
                   else CSSSelector.order_error))).
Proof.
  intros Ha Hk. rewrite (new_run _ _ _ _ _ Ha).
  rewrite (fragment_unknown _ _ Hk), append_nil_r. f_equal.
  unfold verdict, misordered. rewrite Hk.
  destruct (duplicated ty); [done|].
  pose proof (highest_ge 0 (tail ty)).
  by destruct (Z.ltb_spec (-1) (CSSSelector.highest 0 (tail ty))); [|lia].
Qed.

Lemma new_rejects_unknown_kind_witness :
  CSSSelector.new "x" 0 "div" [Arr []] =
    ([Arr []; Obj (Fields "div" (Some 0%nat))],
     Throw (Error CSSSelector.order_error))
  ∧ CSSSelector.new "x" 0 "div" [Arr ["tag"; "id"; "id"]] =
      ([Arr ["tag"; "id"; "id"]; Obj (Fields "div" (Some 0%nat))],
       Throw (Error CSSSelector.uniqueness_error)).
Proof.
  split.
  - exact (new_rejects_unknown_kind [Arr []] 0 [] "x" "div"
             eq_refl eq_refl).
  - exact (new_rejects_unknown_kind [Arr ["tag"; "id"; "id"]] 0
             ["tag"; "id"; "id"] "x" "div" eq_refl eq_refl).
Defined.

(** ** Chains that return *)

Lemma respects_order_snoc_intro H K :
  respects_order H = true → max_rank H ≤ rank K →
  respects_order (H ++ [K]) = true.
Proof.
  unfold respects_order. intros HH Hle.
  rewrite respects_order_from_app, HH by done.
  cbn [respects_order_from andb]. rewrite andb_true_r. apply Z.leb_le.
  pose proof (max_rank_nonneg H). lia.
Qed.

Lemma respects_order_singleton K : respects_order [K] = true.
Proof. by destruct K. Qed.

Lemma appends_Return fs : ∀ h s v H h' s',
  selector_at h s v H →
  unique_history H = true →
  respects_order H = true →
  appends s fs h = (h', Return s') →
  unique_history (H ++ fs.*1) = true
  ∧ respects_order (H ++ fs.*1) = true.
Proof.
  induction fs as [|[K val] fs IH]; intros h s v H h' s' Hsel Hu Hord Hrun.
  - by rewrite app_nil_r.
  - cbn [appends fst snd] in Hrun. unfold mbind, M_bind, bind in Hrun.
    rewrite (append_run _ _ _ _ _ _ Hsel) in Hrun.
    destruct (unique_history (H ++ [K])) eqn:HuK; cbn [negb] in Hrun;
      [|done].
    destruct (Z.ltb_spec (rank K) (max_rank H)) as [|Hge]; [done|].
    rewrite fmap_cons, cons_middle, !app_assoc. cbn [fst].
    eapply IH; [apply selector_at_last|done| |exact Hrun].
    by apply respects_order_snoc_intro.
Qed.

(** X5.  A chain [builder.k0(v0).k1(v1)...] returns a selector exactly when
    its kinds respect the precedence order and hold at most one Element, one
    Id and one PseudoElement; otherwise some call of the chain throws. *)
Theorem chain_returns_iff f fs h :
  (∃ h' s, chain f fs h = (h', Return s))
  ↔ respects_order (f :: fs).*1 = true ∧ unique_history (f :: fs).*1 = true.
Proof.
  split.
  - intros (h' & s & Hrun). destruct f as [K val].
    unfold chain, mbind, M_bind, bind in Hrun. cbn [fst snd] in Hrun.
    rewrite factory_run in Hrun.
    destruct (appends_Return fs _ _ _ [K] _ _
                (selector_at_last h (delimited K val) [K])
                (unique_history_singleton K) (respects_order_singleton K)
                Hrun) as [Hu Hord].
    by rewrite fmap_cons.
  - intros [Hord Hu].
    destruct (chain_run f fs h Hord Hu) as (ext & s & Hrun & _). eauto.
Qed.

(** ** Invariants of programs over the public interface *)

Section client_invariant.
Variable P : list FragmentKind → Prop.
Hypothesis P_factory : ∀ K, P [K].
Hypothesis P_append : ∀ H K,
  P H → unique_history (H ++ [K]) = true → max_rank H ≤ rank K →
  P (H ++ [K]).

(** A property of histories that the factories establish and the accepted
    instance calls keep holds of every selector handed out, and every call
    adds one array and one object referring to it to the store. *)
Lemma client_invariant h known :
  client h known →
  (∀ s, s ∈ known → ∃ v H, selector_at h s v H ∧ P H)
  ∧ (∀ l o, h !! l = Some (Obj o) → ∃ a xs,
       type o = Some a ∧ l = S a ∧ h !! a = Some (Arr xs)).
Proof.
  assert (Hshape : ∀ (h : heap) xs v,
    (∀ l o, h !! l = Some (Obj o) → ∃ a xs,
       type o = Some a ∧ l = S a ∧ h !! a = Some (Arr xs)) →
    ∀ l o, (h ++ [Arr xs; Obj (Fields v (Some (length h)))]) !! l
           = Some (Obj o) →
      ∃ a xs', type o = Some a ∧ l = S a
        ∧ (h ++ [Arr xs; Obj (Fields v (Some (length h)))]) !! a
          = Some (Arr xs')).
  { intros h0 xs v IH l o Hl.
    destruct (decide (l < length h0)%nat) as [Hlt|Hge].
    - rewrite lookup_app_l in Hl by done.
      destruct (IH l o Hl) as (a & xs' & ? & ? & ?).
      exists a, xs'. eauto using lookup_old.
    - rewrite lookup_app_r in Hl by lia.
      destruct (l - length h0)%nat as [|[|n]] eqn:El; [done| |done].
      injection Hl as <-. exists (length h0), xs.
      split; [done|]. split; [lia|].
      rewrite lookup_app_r by lia. by rewrite Nat.sub_diag. }
  assert (Hframe : ∀ (h ext : heap) (known : list loc),
    (∀ s, s ∈ known → ∃ v H, selector_at h s v H ∧ P H) →
    ∀ s, s ∈ known → ∃ v H, selector_at (h ++ ext) s v H ∧ P H).
  { intros h0 ext known0 IH s Hs. destruct (IH s Hs) as (v & H & ? & ?).
    exists v, H. split; [by apply selector_at_frame|done]. }
  induction 1 as [|h known K val h' r Hc [IHk IHs] Hrun
                  |h known K s0 val h' r Hc [IHk IHs] Hin Hrun
                  |h known s1 c s2 h' r Hc [IHk IHs] Hin1 Hin2 Hrun].
  - split; [by intros s ?%elem_of_nil|by intros l o ?].
  - rewrite factory_run in Hrun. injection Hrun as <- <-.
    split; [|by apply Hshape].
    intros s [->|Hs]%elem_of_cons; [|by apply Hframe with known].
    eexists _, [K]. split; [apply (selector_at_last h _ [K])|done].
  - destruct (IHk s0 Hin) as (v0 & H0 & Hsel0 & HP0).
    rewrite (append_run _ _ _ _ _ _ Hsel0) in Hrun.
    injection Hrun as <- <-.
    split; [|by apply Hshape].
    destruct (unique_history (H0 ++ [K])) eqn:Hu; cbn [negb];
      [destruct (Z.ltb_spec (rank K) (max_rank H0))|];
      cbn [returned app]; try (by apply Hframe).
    intros s [->|Hs]%elem_of_cons; [|by apply Hframe with known].
    eexists _, (H0 ++ [K]).
    split; [apply (selector_at_last h _ (H0 ++ [K]))|by apply P_append].
  - destruct (IHk s1 Hin1) as (v1 & H1 & Hsel1 & _).
    destruct (IHk s2 Hin2) as (v2 & H2 & Hsel2 & _).
    destruct Hsel1 as (a1 & Hs1 & _), Hsel2 as (a2 & Hs2 & _).
    unfold cssSelectorBuilder.combine in Hrun.
    rewrite (combine_run _ _ _ _ _ c Hs1 Hs2) in Hrun.
    injection Hrun as <- <-.
    split; [|by apply Hshape].
    intros s [->|Hs]%elem_of_cons; [|by apply Hframe with known].
    eexists _, [Element].
    split; [apply (selector_at_last h _ [Element])|done].
Qed.
End client_invariant.

(** X6.  Every selector the public interface has handed out has a history
    that is not empty and respects the precedence order: no kind in it is
    preceded by a kind of higher rank. *)
Theorem client_ordered h known s :
  client h known →
  s ∈ known →
  ∃ v H, selector_at h s v H ∧ H ≠ [] ∧ respects_order H = true.
Proof.
  intros Hc Hs.
  destruct (client_invariant (λ H, H ≠ [] ∧ respects_order H = true))
    with (h := h) (known := known) as [Hk _]; [| |done|].
  - intros K. split; [done|apply respects_order_singleton].
  - intros H K [_ Hord] _ Hle.
    split; [by destruct H|by apply respects_order_snoc_intro].
  - destruct (Hk s Hs) as (v & H & Hsel & HP). by exists v, H.
Qed.

Lemma client_ordered_witness :
  ∃ v H, selector_at table_x 3 v H ∧ H ≠ [] ∧ respects_order H = true.
Proof.
  apply (client_ordered table_x [3; 1]%nat 3).
  - apply (client_append (cssSelectorBuilder.element "table" []).1 [1%nat]
             Class 1 "x" table_x (Return 3%nat)).
    + apply (client_factory [] [] Element "table" _ (Return 1%nat)).
      * apply client_start.
      * reflexivity.
    + apply list_elem_of_here.
    + reflexivity.
  - apply list_elem_of_here.
Defined.

(** X7.  No two selector objects share their kind array: in every store a
    program over the public interface reaches, each object, handed out or
    left behind by a call that threw, refers to an array of its own, the one
    allocated just before it. *)
Theorem client_no_shared_array h known l1 l2 o1 o2 :
  client h known →
  h !! l1 = Some (Obj o1) →
  h !! l2 = Some (Obj o2) →
  l1 ≠ l2 →
  type o1 ≠ type o2.
Proof.
  intros Hc H1 H2 Hne.
  destruct (client_invariant (λ _, True)) with (h := h) (known := known)
    as [_ Hs]; [done..|].
  destruct (Hs l1 o1 H1) as (a1 & ? & Ha1 & -> & _).
  destruct (Hs l2 o2 H2) as (a2 & ? & Ha2 & -> & _).
  congruence.
Qed.

Lemma client_no_shared_array_witness : Some 0%nat ≠ Some 2%nat.
Proof.
  apply (client_no_shared_array table_x [3; 1]%nat 1 3
           (Fields "table" (Some 0%nat)) (Fields "table.x" (Some 2%nat))).
  - apply (client_append (cssSelectorBuilder.element "table" []).1 [1%nat]
             Class 1 "x" table_x (Return 3%nat)).
    + apply (client_factory [] [] Element "table" _ (Return 1%nat)).
      * apply client_start.
      * reflexivity.
    + apply list_elem_of_here.
    + reflexivity.
  - reflexivity.
  - reflexivity.
  - lia.
Defined.

(** ** Combining and branching *)

Lemma stringify_frame h ext s v :
  (CSSSelector.stringify s h).2 = Return v →
  (CSSSelector.stringify s (h ++ ext)).2 = Return v.
Proof.
  intros (o & Hs & <-)%stringify_Return.
  unfold CSSSelector.stringify.
  by rewrite (get_value_run _ _ _ (lookup_old _ ext _ _ Hs)).
Qed.

Lemma combine_then h s1 c s2 v1 v2 {A} (k : loc → M A) :
  (CSSSelector.stringify s1 h).2 = Return v1 →
  (CSSSelector.stringify s2 h).2 = Return v2 →
  ∃ ext,
    (x ← cssSelectorBuilder.combine s1 c s2; k x) h
    = k (S (length h)) (h ++ ext)
    ∧ (CSSSelector.stringify (S (length h)) (h ++ ext)).2
      = Return (v1 +:+ " " +:+ c +:+ " " +:+ v2).
Proof.
  intros Hv1 Hv2.
  destruct (combine_selector h s1 c s2 v1 v2 Hv1 Hv2)
    as (ext & Hrun & Hsel).
  exists ext. unfold mbind, M_bind, bind. rewrite Hrun.
  split; [done|]. by rewrite (selector_at_stringify _ _ _ _ Hsel).
Qed.

(** X8.  The text of nested combinations does not depend on the nesting:
    combining [a] with [b] and the result with [d] stringifies to the same
    text as combining [a] with the combination of [b] and [d], namely the
    three texts joined by the two combinators, each between single
    spaces. *)
Theorem combine_nesting h a b d c1 c2 va vb vd :
  (CSSSelector.stringify a h).2 = Return va →
  (CSSSelector.stringify b h).2 = Return vb →
  (CSSSelector.stringify d h).2 = Return vd →
  ((x ← cssSelectorBuilder.combine a c1 b;
    y ← cssSelectorBuilder.combine x c2 d;
    CSSSelector.stringify y) h).2
  = Return (va +:+ " " +:+ c1 +:+ " " +:+ vb +:+ " " +:+ c2 +:+ " " +:+ vd)
  ∧ ((x ← cssSelectorBuilder.combine b c2 d;
      y ← cssSelectorBuilder.combine a c1 x;
      CSSSelector.stringify y) h).2
    = Return (va +:+ " " +:+ c1 +:+ " " +:+ vb +:+ " " +:+ c2 +:+ " " +:+ vd).
Proof.
  intros Ha Hb Hd. split.
  - destruct (combine_then h a c1 b va vb
                (λ x, y ← cssSelectorBuilder.combine x c2 d;
                      CSSSelector.stringify y) Ha Hb)
      as (ext & -> & Hx).
    destruct (combine_then (h ++ ext) (S (length h)) c2 d _ vd
                CSSSelector.stringify Hx (stringify_frame _ ext _ _ Hd))
      as (ext' & -> & ->).
    by rewrite !append_assoc.
  - destruct (combine_then h b c2 d vb vd
                (λ x, y ← cssSelectorBuilder.combine a c1 x;
                      CSSSelector.stringify y) Hb Hd)
      as (ext & -> & Hx).
    destruct (combine_then (h ++ ext) a c1 (S (length h)) va _
                CSSSelector.stringify (stringify_frame _ ext _ _ Ha) Hx)
      as (ext' & -> & ->).
    done.
Qed.

Lemma combine_nesting_witness :
  ((x ← cssSelectorBuilder.combine 3 "+" 7;
    y ← cssSelectorBuilder.combine x "~" 3;
    CSSSelector.stringify y) div_table).2
  = Return "div#main + table#data ~ div#main"
  ∧ ((x ← cssSelectorBuilder.combine 7 "~" 3;
      y ← cssSelectorBuilder.combine 3 "+" x;
      CSSSelector.stringify y) div_table).2
    = Return "div#main + table#data ~ div#main".
Proof.
  exact (combine_nesting div_table 3 7 3 "+" "~"
           "div#main" "table#data" "div#main" eq_refl eq_refl eq_refl).
Defined.

(** X9.  [combine] leaves its operands as they were: it only adds cells to
    the store, both operands keep their text and their history, and the
    selector it returns is a new object, distinct from both. *)
Theorem combine_leaves_operands h s1 c s2 v1 H1 v2 H2 :
  selector_at h s1 v1 H1 →
  selector_at h s2 v2 H2 →
  ∃ h' s,
    cssSelectorBuilder.combine s1 c s2 h = (h', Return s)
    ∧ (∀ l x, h !! l = Some x → h' !! l = Some x)
    ∧ selector_at h' s1 v1 H1
    ∧ selector_at h' s2 v2 H2
    ∧ h !! s = None ∧ s ≠ s1 ∧ s ≠ s2.
Proof.
  intros Hsel1 Hsel2.
  destruct (combine_selector h s1 c s2 v1 v2) as (ext & Hrun & _).
  { by rewrite (selector_at_stringify _ _ _ _ Hsel1). }
  { by rewrite (selector_at_stringify _ _ _ _ Hsel2). }
  pose proof (selector_at_bound _ _ _ _ Hsel1).
  pose proof (selector_at_bound _ _ _ _ Hsel2).
  exists (h ++ ext), (S (length h)). split; [done|].
  split; [intros l x; apply lookup_old|].
  split; [by apply selector_at_frame|].
  split; [by apply selector_at_frame|].
  split; [apply lookup_ge_None; lia|lia].
Qed.

Lemma combine_leaves_operands_witness :
  ∃ h' s,
    cssSelectorBuilder.combine 3 ">" 7 div_table = (h', Return s)
    ∧ selector_at h' 3 "div#main" [Element; Id]
    ∧ selector_at h' 7 "table#data" [Element; Id].
Proof.
  destruct (combine_leaves_operands div_table 3 ">" 7
              "div#main" [Element; Id] "table#data" [Element; Id])
    as (h' & s & Hrun & _ & Hs1 & Hs2 & _).
  - exists 2%nat. split; reflexivity.
  - exists 6%nat. split; reflexivity.
  - by exists h', s.
Defined.

(** X10.  A selector serves as a shared prefix.  Two continuations of
    instance calls made from the same selector, each keeping the precedence
    order and the uniqueness of Element, Id and PseudoElement with respect
    to its history, both return; each result stringifies to the prefix text
    followed by its own delimited fragments, and the prefix stringifies as
    before. *)
Theorem shared_prefix_branches h s v H fs1 fs2 :
  selector_at h s v H →
  respects_order (H ++ fs1.*1) = true →
  unique_history (H ++ fs1.*1) = true →
  respects_order (H ++ fs2.*1) = true →
  unique_history (H ++ fs2.*1) = true →
  ((s1 ← appends s fs1;
    s2 ← appends s fs2;
    t1 ← CSSSelector.stringify s1;
    t2 ← CSSSelector.stringify s2;
    t ← CSSSelector.stringify s;
    mret (t1, t2, t)) h).2
  = Return (v +:+ render fs1, v +:+ render fs2, v).
Proof.
  intros Hsel Ho1 Hu1 Ho2 Hu2.
  destruct (appends_run fs1 _ _ _ _ Hsel Ho1 Hu1)
    as (ext1 & s1 & Hrun1 & Hsel1).
  destruct (appends_run fs2 _ _ _ _
              (selector_at_frame _ ext1 _ _ _ Hsel) Ho2 Hu2)
    as (ext2 & s2 & Hrun2 & Hsel2).
  unfold mbind, M_bind, bind. rewrite Hrun1, Hrun2.
  rewrite (selector_at_stringify _ _ _ _
             (selector_at_frame _ ext2 _ _ _ Hsel1)).
  rewrite (selector_at_stringify _ _ _ _ Hsel2).
  rewrite (selector_at_stringify _ _ _ _
             (selector_at_frame _ ext2 _ _ _
                (selector_at_frame _ ext1 _ _ _ Hsel))).
  done.
Qed.

Lemma shared_prefix_branches_witness :
  ((s1 ← appends 3 [(Class, "wide"); (PseudoClass, "hover")];
    s2 ← appends 3 [(Attribute, "border"); (PseudoElement, "after")];
    t1 ← CSSSelector.stringify s1;
    t2 ← CSSSelector.stringify s2;
    t ← CSSSelector.stringify 3;
    mret (t1, t2, t)) table_x).2
  = Return ("table.x.wide:hover", "table.x[border]::after", "table.x").
Proof.
  apply (shared_prefix_branches table_x 3 "table.x" [Element; Class]
           [(Class, "wide"); (PseudoClass, "hover")]
           [(Attribute, "border"); (PseudoElement, "after")]).
  - exists 2%nat. split; reflexivity.
  - reflexivity.
  - reflexivity.
  - reflexivity.
  - reflexivity.
Defined.
